(** * The RPC server contract of [packages/core/src/common/rpc/rpc-server.ts]

    The file has two layers, and so does this development.

    - A type-level layer: the aliases [EnsurePrefix],
      [WithoutCancellationToken] and [RpcServer] are programs that the
      TypeScript checker runs on an interface.  They are embedded as
      functions over a syntax of declared types.
    - A run-time layer: [Symbol.for], [RpcContextKey] and [RpcEvent.is],
      embedded over a small model of JavaScript values, with the realm
      (the symbol registry) passed explicitly. *)

From Stdlib Require Import ZArith.
From stdpp Require Import gmap strings list.

Set Warnings "-register-all".

(* ================================================================== *)
(** * Symbols and property keys *)

(** A symbol is its identity.  The description given at creation lives in
    the realm, not in the symbol. *)
Inductive symbol := Sym (id : nat).

(** [string | symbol]: what indexes an object at run time, and what
    [RpcContextKey] accepts. *)
Inductive PropertyKey :=
| KString (s : string)
| KSymbol (y : symbol).

Global Instance symbol_eq_dec : EqDecision symbol.
Proof. solve_decision. Defined.

Global Instance PropertyKey_eq_dec : EqDecision PropertyKey.
Proof. solve_decision. Defined.

Global Instance symbol_countable : Countable symbol.
Proof.
  refine (inj_countable' (λ y, let 'Sym i := y in i) Sym _).
  by intros [].
Defined.

Global Instance PropertyKey_countable : Countable PropertyKey.
Proof.
  refine (inj_countable'
            (λ k, match k with KString s => inl s | KSymbol y => inr y end)
            (λ x, match x with inl s => KString s | inr y => KSymbol y end) _).
  by intros [].
Defined.

(* ================================================================== *)
(** * Type-level layer *)

(** ** Declared types

    The fragment of TypeScript types on which the three aliases are run,
    read with [strictNullChecks] on.  A member of [keyof T] is a string
    literal, a numeric literal or a unique symbol. *)
Inductive key_ty :=
| KLit (s : string)
| KNum (n : N)
| KUnique (y : symbol).

Inductive prim := PString | PNumber | PBoolean | PVoid | PNull | PUnknown.

(** A type is written as the list of the constituents of a union: one
    constituent for a type that is not a union, none for [never].  [ty] is
    a constituent.

    [Event], [CancellationToken], [PromiseLike] and [Promise] are declared
    outside this file and are kept as named type constructors.  [TRef] is
    any other named interface or class that is not callable, not a
    thenable and not assignable to [CancellationToken].  Intersections and
    [any] are outside the fragment.

    A parameter list is that of a function declaration: required
    parameters, then optional ones, then at most one rest parameter, of
    which [rest] is the element type.  Parameter names play no part in
    the typing and are left out. *)
Inductive ty :=
| TPrim (p : prim)
| TUndefined
| TNever
| TRef (name : string)
| TArray (elt : list ty)
| TPromise (W : list ty)
| TPromiseLike (W : list ty)
| TEvent (U : list ty)
| TRpcEvent (U : list ty)
| TCancellationToken
| TRpcContext
| TFun (s : signature) (ret : list ty)
with signature :=
| Sig (required optional : list (list ty)) (rest : option (list ty)).

Abbreviation uty := (list ty).

Definition required (s : signature) : list uty := let 'Sig r _ _ := s in r.
Definition optional (s : signature) : list uty := let 'Sig _ o _ := s in o.
Definition rest (s : signature) : option uty := let 'Sig _ _ e := s in e.

(** A member of an interface: its key, whether it is declared with [?],
    and its declared type, a single constituent (a member declared with a
    union type is outside the fragment). *)
Record member := Member { mname : key_ty; moptional : bool; mtype : ty }.

(** ** [EnsurePrefix<P, T>] (lines 29-32) *)

(** [T extends `${P}${string}`] *)
Definition extends_prefixed (P : string) (T : key_ty) : bool :=
  match T with
  | KLit s => String.prefix P s
  | _ => false
  end.

(** [None] is [never]. *)
Definition EnsurePrefix (P : string) (T : key_ty) : option key_ty :=
  if extends_prefixed P T then Some T
  else match T with
       | KLit s => Some (KLit (P +:+ s))
       | _ => None
       end.

(** ** [WithoutCancellationToken<T>] (lines 34-36) *)

(** Splitting a tuple as [[...U, x]]. *)
Fixpoint split_last {A} (l : list A) : option (list A * A) :=
  match l with
  | [] => None
  | x :: l' =>
      match split_last l' with
      | None => Some ([], x)
      | Some (U, y) => Some (x :: U, y)
      end
  end.

(** The element type [x] fits the slot [CancellationToken?], whose type is
    [CancellationToken | undefined]: every constituent of [x] is
    assignable to it. *)
Definition extends_CancellationToken_opt (x : uty) : bool :=
  forallb (λ c, match c with
                | TCancellationToken | TUndefined | TNever => true
                | _ => false
                end) x.

(** [unknown[]], the constraint of the inferred [U]. *)
Definition unknown_array : signature := Sig [] [] (Some [TPrim PUnknown]).

(** [T extends [...infer U, CancellationToken?] ? U : T].

    The checker infers [U] from the elements in front of the last fixed
    (required or optional) element of [T], and then tests [T] against the
    pattern.  When [T] has no last fixed element, because it is empty or
    ends in a rest element behind fixed ones, nothing is inferred: [U] is
    its constraint [unknown[]], which every [T] matches.  A rest element
    alone is inferred as [U] itself. *)
Definition WithoutCancellationToken (T : signature) : signature :=
  match rest T with
  | Some e =>
      match required T, optional T with
      | [], [] => T
      | _, _ => unknown_array
      end
  | None =>
      match split_last (optional T) with
      | Some (os, x) =>
          if extends_CancellationToken_opt x then Sig (required T) os None
          else T
      | None =>
          match split_last (required T) with
          | Some (rs, x) =>
              if extends_CancellationToken_opt x then Sig rs [] None else T
          | None => unknown_array
          end
      end
  end.

(** ** [RpcServer<T>] (lines 158-165) *)

(** Which function types are assignable to [Event<U>], and with which
    [U], depends on the declaration of [Event] in [../event], which is not
    part of this file: the test is a parameter of the transformation. *)
Definition event_test : Type := signature → uty → option uty.

(** [X extends Event<infer U>].  [never] is assignable to every type and
    leaves [U] at [unknown]. *)
Definition extends_Event (fits : event_test) (X : ty) : option uty :=
  match X with
  | TEvent U => Some U
  | TFun s V => fits s V
  | TNever => Some [TPrim PUnknown]
  | _ => None
  end.

(** [X extends (...params: infer U) => infer V] *)
Definition extends_function (X : ty) : option (signature * uty) :=
  match X with
  | TFun U V => Some (U, V)
  | _ => None
  end.

(** [c extends PromiseLike<infer W>] *)
Definition extends_PromiseLike (c : ty) : option uty :=
  match c with
  | TPromise W | TPromiseLike W => Some W
  | _ => None
  end.

(** [MaybePromise<W>], which [../types] declares as [W | PromiseLike<W>]. *)
Definition MaybePromise (W : uty) : uty := W ++ [TPromiseLike W].

(** [V extends PromiseLike<infer W> ? MaybePromise<W> : V].  [V] is a type
    variable, so the conditional type distributes over the constituents of
    a union. *)
Definition server_return (V : uty) : uty :=
  V ≫= (λ c, match extends_PromiseLike c with
             | Some W => MaybePromise W
             | None => [c]
             end).

(** [(ctx: RpcContext, ...params: U) => ...] *)
Definition with_context (U : signature) : signature :=
  Sig ([TRpcContext] :: required U) (optional U) (rest U).

(** The right-hand side of the mapped type, applied to [T[K]]. *)
Definition RpcServer_template (fits : event_test) (TK : ty) : ty :=
  match extends_Event fits TK with
  | Some U => TRpcEvent U
  | None =>
      match extends_function TK with
      | Some (U, V) =>
          TFun (with_context (WithoutCancellationToken U)) (server_return V)
      | None => TUndefined
      end
  end.

(** One key of the mapped type: renamed by the [as] clause, dropped when
    the new name is [never], and made required by [-?].

    For a member declared with [?], [T[K]] is the declared type or
    [undefined]: a union that is neither assignable to [Event] nor
    callable, so that the right-hand side is [undefined]; and [-?], when it
    removes the [?], removes [undefined] from the type of the property,
    which leaves [never]. *)
Definition RpcServer_member (fits : event_test) (m : member) : option member :=
  match EnsurePrefix "$" (mname m) with
  | Some K' =>
      Some (Member K' false
              (if moptional m then TNever
               else RpcServer_template fits (mtype m)))
  | None => None
  end.

(** The mapped type, one output member per input member that is kept,
    in the order of the interface.

    Where two keys are renamed to the same name the checker merges them
    into a single property, whose type it computes on the union of the
    types of both members; this list keeps one entry for each of them.
    What is proved below about the type of a server member is proved of
    members that share their new name with no other. *)
Definition RpcServer (fits : event_test) (T : list member) : list member :=
  omap (RpcServer_member fits) T.

(* ================================================================== *)
(** * Run-time layer *)

(** ** The realm: symbols and the global symbol registry *)

(** [descriptions] lists the symbols created so far ([Sym i] is the i-th),
    [registry] is the registry that [Symbol.for] consults.  JavaScript has
    no operation that removes or replaces a registry entry. *)
Record realm := Realm {
  descriptions : list string;
  registry : gmap string symbol
}.

(** Evaluation in a realm. *)
Definition Eval (A : Type) : Type := realm → A * realm.

Definition ret {A} (a : A) : Eval A := λ r, (a, r).

Definition bind {A B} (c : Eval A) (k : A → Eval B) : Eval B :=
  λ r, let '(a, r') := c r in k a r'.

Notation "'let*' x ':=' c 'in' k" := (bind c (λ x, k))
  (at level 10, x name, c at level 100, k at level 200).

(** [Symbol(description)]: always a new symbol, never registered. *)
Definition Symbol (description : string) : Eval symbol :=
  λ r, (Sym (length (descriptions r)),
        Realm (descriptions r ++ [description]) (registry r)).

Definition register (key : string) (y : symbol) : Eval unit :=
  λ r, (tt, Realm (descriptions r) (<[key := y]> (registry r))).

(** [Symbol.for(key)]: the registered symbol for [key], created and
    registered on first use. *)
Definition Symbol_for (key : string) : Eval symbol :=
  λ r, match registry r !! key with
       | Some y => ret y r
       | None => (let* y := Symbol key in
                  let* _ := register key y in
                  ret y) r
       end.

(** What other code of the process can do to the realm. *)
Inductive realm_op :=
| CallSymbol (description : string)
| CallSymbolFor (key : string).

Definition run_op (r : realm) (op : realm_op) : realm :=
  match op with
  | CallSymbol d => (Symbol d r).2
  | CallSymbolFor k => (Symbol_for k r).2
  end.

Definition run_ops (ops : list realm_op) (r : realm) : realm :=
  foldl run_op r ops.

(** ** The constants of the module (lines 48-52) *)

Record exports := Exports {
  RpcServerProvider : symbol;
  kOnSendAll : symbol;
  kOnSendTo : symbol
}.

(** Evaluating the module's top level. *)
Definition load : Eval exports :=
  let* provider := Symbol "RpcServerProvider" in
  let* onSendAll := Symbol_for "onSendAll" in
  let* onSendTo := Symbol_for "onSendTo" in
  ret (Exports provider onSendAll onSendTo).

(** ** Values *)

Inductive val :=
| VUndefined
| VNull
| VBoolean (b : bool)
| VNumber (n : Z)
| VString (s : string)
| VSymbol (y : symbol)
| VObject (o : object)
with object :=
| Obj (callable : bool) (own : list (PropertyKey * val)) (proto : option object).

Definition callable (o : object) : bool := let 'Obj c _ _ := o in c.

Definition typeof (v : val) : string :=
  match v with
  | VUndefined => "undefined"
  | VNull => "object"
  | VBoolean _ => "boolean"
  | VNumber _ => "number"
  | VString _ => "string"
  | VSymbol _ => "symbol"
  | VObject o => if callable o then "function" else "object"
  end.

Fixpoint own_property (own : list (PropertyKey * val)) (k : PropertyKey)
  : option val :=
  match own with
  | [] => None
  | (k', v) :: own' => if decide (k' = k) then Some v else own_property own' k
  end.

(** Lookup along the prototype chain; data properties only. *)
Fixpoint object_get (o : object) (k : PropertyKey) : val :=
  match o with
  | Obj _ own proto =>
      match own_property own k with
      | Some v => v
      | None =>
          match proto with
          | Some p => object_get p k
          | None => VUndefined
          end
      end
  end.

(** ** Completions *)

Inductive error :=
| TypeError
| MissingContextValue (key : PropertyKey).

Inductive result (A : Type) :=
| Ok (a : A)
| Throw (e : error).
Arguments Ok {A} a.
Arguments Throw {A} e.

Definition result_map {A B} (f : A → B) (x : result A) : result B :=
  match x with
  | Ok a => Ok (f a)
  | Throw e => Throw e
  end.

(** [a && b] on booleans: [b] is evaluated only when [a] is true. *)
Definition and_then (a b : result bool) : result bool :=
  match a with
  | Ok true => b
  | _ => a
  end.
Infix "&&&" := and_then (at level 40, left associativity).

(** [value[k]] *)
Definition get_member (v : val) (k : PropertyKey) : result val :=
  match v with
  | VUndefined | VNull => Throw TypeError
  | VObject o => Ok (object_get o k)
  | _ => Ok VUndefined
  end.

(** Modelled from the spec: [isObject] and [isFunction] are imported from
    [../types], which is not part of the sources at hand.  The spec has
    [RpcEvent.is] false for [null] and for a plain function and asks the
    four members to be operations, so [isObject] is the [typeof] test for
    a non-null object and [isFunction] the one for a function. *)
Definition isObject (value : val) : bool :=
  String.eqb (typeof value) "object"
  && match value with VNull => false | _ => true end.

Definition isFunction (value : val) : bool :=
  String.eqb (typeof value) "function".

(** ** [RpcEvent.is] (lines 76-82) *)

Definition RpcEvent_is (m : exports) (value : val) : result bool :=
  Ok (isObject value)
  &&& result_map isFunction (get_member value (KSymbol (kOnSendAll m)))
  &&& result_map isFunction (get_member value (KSymbol (kOnSendTo m)))
  &&& result_map isFunction (get_member value (KString "sendAll"))
  &&& result_map isFunction (get_member value (KString "sendTo")).

(** ** [RpcContextKey] (lines 92-95)

    The type [RpcContextKey<T>] intersects [string | symbol] with an
    optional phantom property; the function is the cast. *)
Definition RpcContextKey (key : PropertyKey) : PropertyKey := key.

(** ** [RpcContext] (lines 100-121) *)

(** Modelled from the spec: the file declares [RpcContext] as an interface
    and holds no implementation of [get] and [require].  Spec 3: the
    context has "keyed metadata: an internal mapping from Context Key to
    value, populated by the transport before dispatch".  Spec 4.2: [get]
    "looks up key in the per-call metadata mapping; returns undefined if
    absent"; [require] is the "same lookup; fails with a
    MissingContextValue error, naming the key, when absent". *)
Record RpcContext := {
  sender : val;
  request : option val;
  metadata : gmap PropertyKey val
}.

Definition RpcContext_get (ctx : RpcContext) (key : PropertyKey) : result val :=
  match metadata ctx !! key with
  | Some v => Ok v
  | None => Ok VUndefined
  end.

Definition RpcContext_require (ctx : RpcContext) (key : PropertyKey)
  : result val :=
  match metadata ctx !! key with
  | Some v => Ok v
  | None => Throw (MissingContextValue key)
  end.

(** ** [SendAllEvent], [SendToEvent] (lines 57-68) *)

Module SendAllEvent.
Record t := Make { value : val; exceptions : option (list val) }.
End SendAllEvent.

Module SendToEvent.
Record t := Make { value : val; targets : list val }.
End SendToEvent.

Inductive notification :=
| OnSendAll (e : SendAllEvent.t)
| OnSendTo (e : SendToEvent.t).

(** ** [RpcEvent.sendAll], [RpcEvent.sendTo] (lines 85-86) *)

(** Modelled from the spec: both methods are abstract in the file.  Spec
    3 gives the primitive "two internal observation channels (onSendAll,
    onSendTo), each an event stream consumers can subscribe to"; spec 4.4
    gives the duty of [sendAll]: "raise an onSendAll notification carrying
    {value: event, exceptions}", and of [sendTo]: "Raises onSendTo with
    {value: event, targets}".  A channel is the list of its subscribers;
    raising a notification on it calls each of them, in order, with the
    payload.  [raised] and [calls] are the history of the object. *)
Record RpcEventImpl := {
  onSendAll : list nat;
  onSendTo : list nat;
  raised : list notification;
  calls : list (nat * notification)
}.

Definition fire (listeners : list nat) (n : notification) (ev : RpcEventImpl)
  : RpcEventImpl :=
  {| onSendAll := onSendAll ev;
     onSendTo := onSendTo ev;
     raised := raised ev ++ [n];
     calls := calls ev ++ map (λ l, (l, n)) listeners |}.

Definition sendAll (event : val) (exceptions : option (list val))
    (ev : RpcEventImpl) : RpcEventImpl :=
  fire (onSendAll ev) (OnSendAll (SendAllEvent.Make event exceptions)) ev.

Definition sendTo (event : val) (targets : list val)
    (ev : RpcEventImpl) : RpcEventImpl :=
  fire (onSendTo ev) (OnSendTo (SendToEvent.Make event targets)) ev.

(* ================================================================== *)
(** * Sample inputs *)

Definition string_ : uty := [TPrim PString].
Definition void_ : uty := [TPrim PVoid].

(** A test for [Event] under which, of the function types, those fit that
    take no required parameter and return a [Disposable]. *)
Definition Disposable_test : event_test :=
  λ s V,
    match required s, V with
    | [], [TRef "Disposable"] => Some [TPrim PUnknown]
    | _, _ => None
    end.

(** [interface Shell { showItemInFolder(fsPath: string): void }] *)
Definition Shell : list member :=
  [Member (KLit "showItemInFolder") false (TFun (Sig [string_] [] None) void_)].

(** [[
interface Search {
    find(query: string, token?: CancellationToken): Promise<string>;
    $ping(): void;
    onDidChange: Event<string>;
    version: number;
    label?: string;
    watch(): Disposable;
    [tag](): void;
}
]] *)
Definition Search : list member :=
  [ Member (KLit "find") false
      (TFun (Sig [string_] [[TCancellationToken]] None) [TPromise string_]);
    Member (KLit "$ping") false (TFun (Sig [] [] None) void_);
    Member (KLit "onDidChange") false (TEvent string_);
    Member (KLit "version") false (TPrim PNumber);
    Member (KLit "label") true (TPrim PString);
    Member (KLit "watch") false (TFun (Sig [] [] None) [TRef "Disposable"]);
    Member (KUnique (Sym 7)) false (TFun (Sig [] [] None) void_) ].

Definition noop : val := VObject (Obj true [] None).

(** An instance of a class that extends [RpcEvent]: the two channels are
    own properties, the two methods sit on the prototype. *)
Definition sample_event (m : exports) : val :=
  VObject (Obj false
             [(KSymbol (kOnSendAll m), noop); (KSymbol (kOnSendTo m), noop)]
             (Some (Obj false
                      [(KString "sendAll", noop); (KString "sendTo", noop)]
                      None))).

Definition empty_realm : realm := Realm [] ∅.

Definition sample_context : RpcContext :=
  {| sender := VString "window-1";
     request := None;
     metadata := {[ KString "connection" := VNumber 1 ]} |}.

Definition sample_emitter : RpcEventImpl :=
  {| onSendAll := [0; 1]; onSendTo := [0]; raised := []; calls := [] |}.

(* ================================================================== *)
(** * The vocabulary of the specification *)

(** "Starts with the reserved prefix". *)
Definition starts_with (P K : string) : Prop := ∃ rest, K = P +:+ rest.



(** "An awaitable". *)
Definition awaitable (c : ty) : Prop :=
  ∃ W, c = TPromise W ∨ c = TPromiseLike W.

(** No other member of the interface is renamed as [m] is. *)
Definition unshared (T : list member) (m : member) : Prop :=
  ∀ m', m' ∈ T →
        EnsurePrefix "$" (mname m') = EnsurePrefix "$" (mname m) → m' = m.

(** Tactics that decide membership and [unshared] on a written-out
    interface. *)
Ltac members H :=
  repeat (apply elem_of_cons in H as [H|H]);
  [..|by apply elem_of_nil in H].

Ltac solve_unshared :=
  let m' := fresh "m'" in
  let Hin := fresh "Hin" in
  let Heq := fresh "Heq" in
  intros m' Hin Heq; members Hin; subst m';
  first [reflexivity | vm_compute in Heq; discriminate Heq].

(** "Is a function". *)
Definition function_val (v : val) : Prop :=
  ∃ own proto, v = VObject (Obj true own proto).

(** "An object whose [kOnSendAll] member, [kOnSendTo] member, [sendAll]
    member and [sendTo] member are all functions"; an object here is what
    [typeof] calls one, which leaves functions out. *)
Definition event_shaped (m : exports) (x : val) : Prop :=
  ∃ o, x = VObject o
       ∧ callable o = false
       ∧ function_val (object_get o (KSymbol (kOnSendAll m)))
       ∧ function_val (object_get o (KSymbol (kOnSendTo m)))
       ∧ function_val (object_get o (KString "sendAll"))
       ∧ function_val (object_get o (KString "sendTo")).

(** The four members [RpcEvent.is] asks for. *)
Definition event_members (m : exports) : list PropertyKey :=
  [KSymbol (kOnSendAll m); KSymbol (kOnSendTo m);
   KString "sendAll"; KString "sendTo"].

(** The provider symbol is unknown to the registry and already allocated. *)
Definition unregistered (p : symbol) (r : realm) : Prop :=
  (∀ k, registry r !! k ≠ Some p)
  ∧ (let 'Sym i := p in i < length (descriptions r)).

(** Every registered symbol has been allocated. *)
Definition registry_allocated (r : realm) : Prop :=
  ∀ k i, registry r !! k = Some (Sym i) → i < length (descriptions r).

(** The key is a string literal. *)
Definition string_named (m : member) : bool :=
  match mname m with
  | KLit _ => true
  | _ => false
  end.

(** What holds of every realm a program can reach: registered symbols
    have been allocated, and no symbol is registered under two keys. *)
Definition realm_ok (r : realm) : Prop :=
  registry_allocated r
  ∧ ∀ k1 k2 y, registry r !! k1 = Some y → registry r !! k2 = Some y → k1 = k2.

(* ================================================================== *)
(** * Properties of the type-level layer *)

Section type_level.

Implicit Types (T : list member) (m : member) (K : string)
  (s : signature) (x V : uty) (fits : event_test).

Lemma prefix_starts_with P K : String.prefix P K = true ↔ starts_with P K.
Proof.
  revert K. induction P as [|c P IH]; intros K; simpl.
  - destruct K; (split; [intros _; by eexists | done]).
  - destruct K as [|c' K]; simpl.
    + split; [done | by intros [rest ?]].
    + destruct (Ascii.ascii_dec c c') as [Heq|Hne]; [subst c'|].
      * rewrite IH. split; intros [rest Hr]; exists rest.
        -- by rewrite Hr.
        -- by injection Hr.
      * split; [done | intros [rest Hr]; by injection Hr].
Qed.

Lemma prefix_not_starts_with P K : String.prefix P K = false ↔ ¬ starts_with P K.
Proof.
  rewrite <-prefix_starts_with. by destruct (String.prefix P K).
Qed.

Lemma EnsurePrefix_literal P K :
  ∃ K', EnsurePrefix P (KLit K) = Some (KLit K')
        ∧ ((starts_with P K ∧ K' = K) ∨ (¬ starts_with P K ∧ K' = P +:+ K)).
Proof.
  unfold EnsurePrefix; simpl.
  destruct (String.prefix P K) eqn:E.
  - exists K. split; [done|]. left. by rewrite <-prefix_starts_with.
  - exists (P +:+ K). split; [done|]. right. by rewrite <-prefix_not_starts_with.
Qed.

Lemma EnsurePrefix_starts_with P k k' :
  EnsurePrefix P k = Some k' → ∃ K', k' = KLit K' ∧ starts_with P K'.
Proof.
  unfold EnsurePrefix. destruct k as [K| |]; simpl; [|done..].
  destruct (String.prefix P K) eqn:E; intros [= <-]; eexists; (split; [done|]).
  - by apply prefix_starts_with.
  - by exists K.
Qed.

Lemma EnsurePrefix_not_string P k :
  (∀ K, k ≠ KLit K) → EnsurePrefix P k = None.
Proof. destruct k; [intros H; by destruct (H s) | done..]. Qed.

Lemma split_last_snoc {A} (l : list A) (a : A) : split_last (l ++ [a]) = Some (l, a).
Proof. induction l as [|y l IH]; simpl; [done | by rewrite IH]. Qed.

Lemma split_last_Some {A} (l U : list A) (a : A) :
  split_last l = Some (U, a) → l = U ++ [a].
Proof.
  revert U. induction l as [|y l IH]; intros U; simpl; [done|].
  destruct (split_last l) as [[U' z]|] eqn:E.
  - intros [= <- <-]. by rewrite (IH U' eq_refl).
  - destruct l; [by intros [= <- <-] | simpl in E].
    by destruct (split_last l) as [[??]|].
Qed.

Lemma split_last_None {A} (l : list A) : split_last l = None → l = [].
Proof.
  destruct l as [|y l]; [done|]. simpl. by destruct (split_last l) as [[??]|].
Qed.



(** The cases of [WithoutCancellationToken]. *)
Lemma WithoutCancellationToken_required rs x :
  WithoutCancellationToken (Sig (rs ++ [x]) [] None)
  = if extends_CancellationToken_opt x then Sig rs [] None
    else Sig (rs ++ [x]) [] None.
Proof. unfold WithoutCancellationToken. simpl. by rewrite split_last_snoc. Qed.

Lemma WithoutCancellationToken_optional rs os x :
  WithoutCancellationToken (Sig rs (os ++ [x]) None)
  = if extends_CancellationToken_opt x then Sig rs os None
    else Sig rs (os ++ [x]) None.
Proof. unfold WithoutCancellationToken. simpl. by rewrite split_last_snoc. Qed.

Lemma RpcServer_member_elem fits T m m' :
  m ∈ T → RpcServer_member fits m = Some m' → m' ∈ RpcServer fits T.
Proof. intros. apply list_elem_of_omap. eauto. Qed.

Lemma RpcServer_elem_inv fits T m' :
  m' ∈ RpcServer fits T → ∃ m, m ∈ T ∧ RpcServer_member fits m = Some m'.
Proof. intros H. by apply list_elem_of_omap in H. Qed.

(** Every name of a server shape starts with [$]. *)
Lemma RpcServer_prefixed fits T m' :
  m' ∈ RpcServer fits T → ∃ K', mname m' = KLit K' ∧ starts_with "$" K'.
Proof.
  intros Hin. apply RpcServer_elem_inv in Hin as (m & _ & Hm).
  unfold RpcServer_member in Hm.
  destruct (EnsurePrefix "$" (mname m)) as [k'|] eqn:E; [|done].
  injection Hm as <-. simpl. by apply EnsurePrefix_starts_with in E.
Qed.

(** What [RpcServer] does to a required member named by a string. *)
Lemma required_member_server fits T K X :
  Member (KLit K) false X ∈ T →
  ∃ K',
    let m' := Member (KLit K') false (RpcServer_template fits X) in
    RpcServer_member fits (Member (KLit K) false X) = Some m'
    ∧ m' ∈ RpcServer fits T
    ∧ ((starts_with "$" K ∧ K' = K) ∨ (¬ starts_with "$" K ∧ K' = "$" +:+ K)).
Proof.
  intros Hin. destruct (EnsurePrefix_literal "$" K) as (K' & HK' & Hname).
  exists K'. simpl.
  assert (RpcServer_member fits (Member (KLit K) false X)
          = Some (Member (KLit K') false (RpcServer_template fits X))) as Hm.
  { unfold RpcServer_member; simpl mname; by rewrite HK'. }
  split; [exact Hm|]. split; [|exact Hname].
  eapply RpcServer_member_elem; [exact Hin | exact Hm].
Qed.

(** The right-hand side on a function type that does not fit [Event]. *)
Lemma RpcServer_template_function fits s V :
  fits s V = None →
  RpcServer_template fits (TFun s V)
  = TFun (with_context (WithoutCancellationToken s)) (server_return V).
Proof. intros H. unfold RpcServer_template. simpl. by rewrite H. Qed.

(** On a function type the right-hand side is an [RpcEvent] or a function,
    as the type fits [Event] or not. *)
Lemma RpcServer_template_function_cases fits s V :
  (∃ U, RpcServer_template fits (TFun s V) = TRpcEvent U)
  ∨ RpcServer_template fits (TFun s V)
    = TFun (with_context (WithoutCancellationToken s)) (server_return V).
Proof.
  unfold RpcServer_template. simpl. destruct (fits s V); eauto.
Qed.

(** Keys that are not strings are filtered out by the [never] branch of
    [EnsurePrefix]: such a member has no counterpart in the server shape. *)
Lemma non_string_member_dropped fits m :
  (∀ K, mname m ≠ KLit K) → RpcServer_member fits m = None.
Proof.
  intros H. unfold RpcServer_member. by rewrite (EnsurePrefix_not_string _ _ H).
Qed.

Lemma server_return_plain V :
  (∀ c, c ∈ V → ¬ awaitable c) → server_return V = V.
Proof.
  unfold server_return. induction V as [|c V IH]; intros H; [done|].
  rewrite bind_cons, IH by (intros c' Hc'; apply H; by constructor).
  assert (extends_PromiseLike c = None) as ->; [|done].
  destruct c; try done; destruct (H _ (list_elem_of_here _ _)); eexists; eauto.
Qed.

End type_level.

(** ** The two sample interfaces, transformed *)

Example RpcServer_Shell :
  RpcServer Disposable_test Shell
  = [Member (KLit "$showItemInFolder") false
       (TFun (Sig [[TRpcContext]; string_] [] None) void_)].
Proof. reflexivity. Qed.

Example RpcServer_Search :
  RpcServer Disposable_test Search
  = [ Member (KLit "$find") false
        (TFun (Sig [[TRpcContext]; string_] [] None)
              [TPrim PString; TPromiseLike string_]);
      Member (KLit "$ping") false
        (TFun (Sig [[TRpcContext]] [] (Some [TPrim PUnknown])) void_);
      Member (KLit "$onDidChange") false (TRpcEvent string_);
      Member (KLit "$version") false TUndefined;
      Member (KLit "$label") false TNever;
      Member (KLit "$watch") false (TRpcEvent [TPrim PUnknown]) ].
Proof. reflexivity. Qed.

(** Only the last parameter goes, and only when nothing but a
    cancellation token or [undefined] can be passed for it. *)
Example WithoutCancellationToken_samples :
  WithoutCancellationToken (Sig [string_] [[TCancellationToken]; [TCancellationToken]] None)
  = Sig [string_] [[TCancellationToken]] None
  ∧ WithoutCancellationToken (Sig [[TCancellationToken]; string_] [] None)
    = Sig [[TCancellationToken]; string_] [] None
  ∧ WithoutCancellationToken (Sig [string_; [TCancellationToken; TUndefined]] [] None)
    = Sig [string_] [] None
  ∧ WithoutCancellationToken (Sig [string_; [TUndefined]] [] None)
    = Sig [string_] [] None
  ∧ WithoutCancellationToken (Sig [] [] (Some string_)) = Sig [] [] (Some string_).
Proof. by repeat split. Qed.

(** The conditional on the return type distributes over a union. *)
Example server_return_samples :
  server_return [TPromise string_] = [TPrim PString; TPromiseLike string_]
  ∧ server_return [TPrim PString; TUndefined] = [TPrim PString; TUndefined]
  ∧ server_return (MaybePromise [TPromise string_])
    = [TPrim PString; TPromiseLike string_;
       TPromise string_; TPromiseLike [TPromise string_]].
Proof. by repeat split. Qed.

(** ** Function-typed members *)

(** C1, as the code has it.  Take a required member named by a string,
    that shares its new name with no other, and whose declared type is a
    function type that does not fit [Event].  Its server member returns
    [V] itself, not wrapped, when no constituent of the return type [V] is
    an awaitable; it returns [W | PromiseLike<W>], which is
    [MaybePromise<W>], when [V] is [Promise<W>] or [PromiseLike<W>]. *)
Theorem server_return_type (fits : event_test) (T : list member) K s V :
  Member (KLit K) false (TFun s V) ∈ T →
  unshared T (Member (KLit K) false (TFun s V)) →
  fits s V = None →
  ∃ K' s' V',
    RpcServer_member fits (Member (KLit K) false (TFun s V))
    = Some (Member (KLit K') false (TFun s' V'))
    ∧ Member (KLit K') false (TFun s' V') ∈ RpcServer fits T
    ∧ ((∀ c, c ∈ V → ¬ awaitable c) → V' = V)
    ∧ (∀ W, V = [TPromise W] ∨ V = [TPromiseLike W] → V' = W ++ [TPromiseLike W]).
Proof.
  intros Hin _ Hfit.
  destruct (required_member_server fits T K _ Hin) as (K' & Hm & Hel & _).
  rewrite (RpcServer_template_function fits s V Hfit) in Hm, Hel.
  eexists K', _, _. split; [exact Hm|]. split; [exact Hel|]. split.
  - apply server_return_plain.
  - intros W [-> | ->]; unfold server_return; simpl; by rewrite app_nil_r.
Qed.

Lemma server_return_type_witness :
  ∃ K' s' V',
    RpcServer_member Disposable_test
      (Member (KLit "find") false
         (TFun (Sig [string_] [[TCancellationToken]] None) [TPromise string_]))
    = Some (Member (KLit K') false (TFun s' V'))
    ∧ Member (KLit K') false (TFun s' V') ∈ RpcServer Disposable_test Search
    ∧ ((∀ c, c ∈ [TPromise string_] → ¬ awaitable c) → V' = [TPromise string_])
    ∧ (∀ W, [TPromise string_] = [TPromise W] ∨ [TPromise string_] = [TPromiseLike W] →
            V' = W ++ [TPromiseLike W]).
Proof.
  apply (server_return_type Disposable_test Search "find"
           (Sig [string_] [[TCancellationToken]] None) [TPromise string_]).
  - constructor.
  - solve_unshared.
  - reflexivity.
Defined.

(** C1 as stated fails, whichever function types fit [Event]: the server
    member for the synchronous [showItemInFolder(fsPath: string): void]
    does not return an awaitable of [void]. *)
Lemma sync_method_not_wrapped :
  ¬ ∃ fits : event_test,
      ∀ K s V,
        Member (KLit K) false (TFun s V) ∈ Shell →
        (∀ c, c ∈ V → ¬ awaitable c) →
        ∃ K' s' V',
          RpcServer_member fits (Member (KLit K) false (TFun s V))
          = Some (Member K' false (TFun s' V'))
          ∧ (V' = [TPromise V] ∨ V' = [TPromiseLike V] ∨ V' = MaybePromise V).
Proof.
  intros [fits H].
  destruct (H "showItemInFolder" (Sig [string_] [] None) void_)
    as (K' & s' & V' & Hm & HV).
  - constructor.
  - intros c Hc [W HW]. apply list_elem_of_singleton in Hc as ->.
    by destruct HW.
  - unfold RpcServer_member in Hm. simpl in Hm.
    destruct (RpcServer_template_function_cases fits (Sig [string_] [] None) void_)
      as [[U HU]|HF]; [rewrite HU in Hm; discriminate Hm|].
    rewrite HF in Hm. injection Hm as _ _ <-.
    by destruct HV as [|[|]].
Qed.

(** C4, as the code has it.  A required member named [K], of a function
    type that does not fit [Event], and that shares its new name with no
    other, is served under [K] itself when [K] starts with [$] and under
    [$K] otherwise, by a function whose first parameter is the
    [RpcContext]. *)
Theorem server_member_name_and_context (fits : event_test) (T : list member) K s V :
  Member (KLit K) false (TFun s V) ∈ T →
  unshared T (Member (KLit K) false (TFun s V)) →
  fits s V = None →
  ∃ K' rs os r V',
    RpcServer_member fits (Member (KLit K) false (TFun s V))
    = Some (Member (KLit K') false (TFun (Sig ([TRpcContext] :: rs) os r) V'))
    ∧ Member (KLit K') false (TFun (Sig ([TRpcContext] :: rs) os r) V')
      ∈ RpcServer fits T
    ∧ ((starts_with "$" K ∧ K' = K) ∨ (¬ starts_with "$" K ∧ K' = "$" +:+ K)).
Proof.
  intros Hin _ Hfit.
  destruct (required_member_server fits T K _ Hin) as (K' & Hm & Hel & Hname).
  rewrite (RpcServer_template_function fits s V Hfit) in Hm, Hel.
  by eexists K', _, _, _, _.
Qed.

Lemma server_member_name_and_context_witness :
  ∃ K' rs os r V',
    RpcServer_member Disposable_test
      (Member (KLit "$ping") false (TFun (Sig [] [] None) void_))
    = Some (Member (KLit K') false (TFun (Sig ([TRpcContext] :: rs) os r) V'))
    ∧ Member (KLit K') false (TFun (Sig ([TRpcContext] :: rs) os r) V')
      ∈ RpcServer Disposable_test Search
    ∧ ((starts_with "$" "$ping" ∧ K' = "$ping")
       ∨ (¬ starts_with "$" "$ping" ∧ K' = "$" +:+ "$ping")).
Proof.
  apply (server_member_name_and_context Disposable_test Search "$ping"
           (Sig [] [] None) void_).
  - do 2 constructor.
  - solve_unshared.
  - reflexivity.
Defined.

(** C4 as stated fails, whichever function types fit [Event]: the method
    of [Search] that is named by a symbol has no server member at all. *)
Lemma symbol_method_not_served :
  ¬ ∃ fits : event_test,
      ∀ k s V,
        Member k false (TFun s V) ∈ Search →
        ∃ k' rs os r V',
          RpcServer_member fits (Member k false (TFun s V))
          = Some (Member k' false (TFun (Sig ([TRpcContext] :: rs) os r) V')).
Proof.
  intros [fits H].
  destruct (H (KUnique (Sym 7)) (Sig [] [] None) void_)
    as (k' & rs & os & r & V' & Hm).
  - do 7 constructor.
  - discriminate Hm.
Qed.




(** ** Event members *)

(** C2, as the code has it: the key is renamed whatever the type of the
    member.  A required event member named [K], that shares its new name
    with no other, is served as an [RpcEvent<U>] under [K] itself when [K]
    starts with [$] and under [$K] otherwise; and every name of the server
    shape starts with [$]. *)
Theorem event_member_prefixed (fits : event_test) (T : list member) :
  (∀ K U,
      Member (KLit K) false (TEvent U) ∈ T →
      unshared T (Member (KLit K) false (TEvent U)) →
      ∃ K',
        RpcServer_member fits (Member (KLit K) false (TEvent U))
        = Some (Member (KLit K') false (TRpcEvent U))
        ∧ Member (KLit K') false (TRpcEvent U) ∈ RpcServer fits T
        ∧ ((starts_with "$" K ∧ K' = K) ∨ (¬ starts_with "$" K ∧ K' = "$" +:+ K)))
  ∧ (∀ m', m' ∈ RpcServer fits T → ∃ K', mname m' = KLit K' ∧ starts_with "$" K').
Proof.
  split.
  - intros K U Hin _.
    destruct (required_member_server fits T K _ Hin) as (K' & Hm & Hel & Hname).
    by exists K'.
  - apply RpcServer_prefixed.
Qed.

Lemma event_member_prefixed_witness :
  (∃ K',
      RpcServer_member Disposable_test (Member (KLit "onDidChange") false (TEvent string_))
      = Some (Member (KLit K') false (TRpcEvent string_))
      ∧ Member (KLit K') false (TRpcEvent string_) ∈ RpcServer Disposable_test Search
      ∧ ((starts_with "$" "onDidChange" ∧ K' = "onDidChange")
         ∨ (¬ starts_with "$" "onDidChange" ∧ K' = "$" +:+ "onDidChange")))
  ∧ (∃ K', mname (Member (KLit "$version") false TUndefined) = KLit K'
           ∧ starts_with "$" K').
Proof.
  destruct (event_member_prefixed Disposable_test Search) as [Hev Hall]. split.
  - apply Hev; [do 3 constructor | solve_unshared].
  - apply Hall. vm_compute. do 4 constructor.
Defined.

(** C2 as stated fails on [Search]: the event member [onDidChange] does
    not keep its name, and its server member both starts with [$] and is
    an [RpcEvent]. *)
Lemma event_member_renamed :
  ¬ ∃ fits : event_test,
      ∀ K U,
        Member (KLit K) false (TEvent U) ∈ Search →
        Member (KLit K) false (TRpcEvent U) ∈ RpcServer fits Search
        ∧ ∀ m', m' ∈ RpcServer fits Search →
                ¬ ((∃ K', mname m' = KLit K' ∧ starts_with "$" K')
                   ∧ (∃ U', mtype m' = TRpcEvent U')).
Proof.
  intros [fits H].
  destruct (H "onDidChange" string_) as [Hname _]; [do 3 constructor|].
  apply RpcServer_prefixed in Hname as (K' & [= <-] & rest & Hrest).
  discriminate Hrest.
Qed.

(** ** Other members *)




(* ================================================================== *)
(** * Properties of the run-time layer *)

(** ** The symbol registry *)

Section registry.

Implicit Types (r : realm) (k : string) (y : symbol) (ops : list realm_op).

Lemma Symbol_for_hit k r y : registry r !! k = Some y → Symbol_for k r = (y, r).
Proof. intros H. unfold Symbol_for. by rewrite H. Qed.

Lemma Symbol_for_registered k r :
  registry (Symbol_for k r).2 !! k = Some (Symbol_for k r).1.
Proof.
  unfold Symbol_for. destruct (registry r !! k) as [y|] eqn:E; simpl; [done|].
  apply lookup_insert_eq.
Qed.

Lemma Symbol_for_keeps k k' r y :
  registry r !! k = Some y → registry (Symbol_for k' r).2 !! k = Some y.
Proof.
  intros H. unfold Symbol_for.
  destruct (registry r !! k') as [y'|] eqn:E; simpl; [done|].
  rewrite lookup_insert_ne; [done | congruence].
Qed.

Lemma run_op_keeps op k r y :
  registry r !! k = Some y → registry (run_op r op) !! k = Some y.
Proof. destruct op; simpl; [done | apply Symbol_for_keeps]. Qed.

Lemma run_ops_keeps ops k r y :
  registry r !! k = Some y → registry (run_ops ops r) !! k = Some y.
Proof.
  revert r. induction ops as [|op ops IH]; intros r H; simpl; [done|].
  by apply IH, run_op_keeps.
Qed.

Lemma load_unfold r :
  load r =
  let r1 := (Symbol "RpcServerProvider" r).2 in
  let r2 := (Symbol_for "onSendAll" r1).2 in
  (Exports (Symbol "RpcServerProvider" r).1
           (Symbol_for "onSendAll" r1).1
           (Symbol_for "onSendTo" r2).1,
   (Symbol_for "onSendTo" r2).2).
Proof.
  unfold load, bind, ret. simpl.
  destruct (Symbol_for "onSendAll" _) as [a r2] eqn:E2. simpl.
  by destruct (Symbol_for "onSendTo" r2) as [t r3] eqn:E3.
Qed.

Lemma load_kOnSendAll r :
  kOnSendAll (load r).1
  = (Symbol_for "onSendAll" (Symbol "RpcServerProvider" r).2).1.
Proof. by rewrite load_unfold. Qed.

Lemma load_kOnSendTo r :
  kOnSendTo (load r).1
  = (Symbol_for "onSendTo"
       (Symbol_for "onSendAll" (Symbol "RpcServerProvider" r).2).2).1.
Proof. by rewrite load_unfold. Qed.

Lemma load_registered r :
  registry (load r).2 !! "onSendAll" = Some (kOnSendAll (load r).1)
  ∧ registry (load r).2 !! "onSendTo" = Some (kOnSendTo (load r).1).
Proof.
  rewrite load_unfold. simpl. split.
  - apply Symbol_for_keeps, Symbol_for_registered.
  - apply Symbol_for_registered.
Qed.

End registry.

Example load_empty_realm :
  (load empty_realm).1 = Exports (Sym 0) (Sym 1) (Sym 2)
  ∧ descriptions (load empty_realm).2 = ["RpcServerProvider"; "onSendAll"; "onSendTo"]
  ∧ registry (load empty_realm).2 !! "onSendAll" = Some (Sym 1)
  ∧ registry (load empty_realm).2 !! "RpcServerProvider" = None.
Proof. by vm_compute. Qed.

(** C10: the two channel keys come from the global registry.  Whatever
    other code does to the realm after the module is loaded, its own
    [Symbol.for('onSendAll')] and [Symbol.for('onSendTo')] are the
    module's keys; and when other code asked the registry first, the
    module receives the symbols that were handed out then. *)
Theorem channel_keys_shared (r : realm) (ops : list realm_op) :
  ((Symbol_for "onSendAll" (run_ops ops (load r).2)).1 = kOnSendAll (load r).1
   ∧ (Symbol_for "onSendTo" (run_ops ops (load r).2)).1 = kOnSendTo (load r).1)
  ∧ (kOnSendAll (load (run_ops ops (Symbol_for "onSendAll" r).2)).1
     = (Symbol_for "onSendAll" r).1
     ∧ kOnSendTo (load (run_ops ops (Symbol_for "onSendTo" r).2)).1
       = (Symbol_for "onSendTo" r).1).
Proof.
  destruct (load_registered r) as [Hall Hto]. split; split.
  - by rewrite (Symbol_for_hit _ _ _ (run_ops_keeps ops _ _ _ Hall)).
  - by rewrite (Symbol_for_hit _ _ _ (run_ops_keeps ops _ _ _ Hto)).
  - pose proof (run_ops_keeps ops _ _ _ (Symbol_for_registered "onSendAll" r)) as H.
    rewrite load_kOnSendAll.
    by rewrite (Symbol_for_hit "onSendAll" (Symbol "RpcServerProvider" _).2 _ H).
  - pose proof (run_ops_keeps ops _ _ _ (Symbol_for_registered "onSendTo" r)) as H.
    rewrite load_kOnSendTo.
    apply (Symbol_for_keeps _ "onSendAll" (Symbol "RpcServerProvider" _).2) in H.
    by rewrite (Symbol_for_hit "onSendTo" _ _ H).
Qed.

(** By contrast the [Symbol(...)] behind [RpcServerProvider] is private:
    no later [Symbol.for] and no later [Symbol] returns it. *)
Section provider.

Implicit Types (r : realm) (p : symbol).

Lemma unregistered_Symbol p d r :
  unregistered p r → (Symbol d r).1 ≠ p ∧ unregistered p (Symbol d r).2.
Proof.
  destruct p as [i]. intros [Hreg Hlt]. simpl. split; [intros [= <-]; lia|].
  split; [done|]. simpl. rewrite length_app. simpl. lia.
Qed.

Lemma unregistered_Symbol_for p k r :
  unregistered p r → (Symbol_for k r).1 ≠ p ∧ unregistered p (Symbol_for k r).2.
Proof.
  destruct p as [i]. intros [Hreg Hlt]. unfold Symbol_for.
  destruct (registry r !! k) as [y|] eqn:E; simpl.
  - split; [intros ->; by destruct (Hreg k) | done].
  - split; [intros [= <-]; lia|]. split.
    + intros k'. simpl. destruct (decide (k = k')) as [->|Hne].
      * rewrite lookup_insert_eq. intros [= <-]. lia.
      * rewrite lookup_insert_ne; [apply Hreg | done].
    + simpl. rewrite length_app. simpl. lia.
Qed.

Lemma unregistered_run_ops p ops r :
  unregistered p r → unregistered p (run_ops ops r).
Proof.
  revert r. induction ops as [|op ops IH]; intros r H; simpl; [done|].
  apply IH. destruct op; simpl.
  - by apply unregistered_Symbol.
  - by apply unregistered_Symbol_for.
Qed.

Lemma unregistered_load r :
  registry_allocated r → unregistered (RpcServerProvider (load r).1) (load r).2.
Proof.
  intros Hwf. rewrite load_unfold. simpl.
  do 2 apply unregistered_Symbol_for.
  split; simpl; [|rewrite length_app; simpl; lia].
  intros k H. apply Hwf in H. lia.
Qed.

(** X15: the provider symbol stays private.  After the module is loaded
    in a realm whose registered symbols are all allocated, no call of
    [Symbol.for], whatever the label, and no call of [Symbol] returns the
    symbol exported as [RpcServerProvider]. *)
Lemma RpcServerProvider_private r ops k d :
  registry_allocated r →
  (Symbol_for k (run_ops ops (load r).2)).1 ≠ RpcServerProvider (load r).1
  ∧ (Symbol d (run_ops ops (load r).2)).1 ≠ RpcServerProvider (load r).1.
Proof.
  intros Hwf.
  pose proof (unregistered_run_ops _ ops _ (unregistered_load r Hwf)) as H.
  split; [by apply unregistered_Symbol_for | by apply unregistered_Symbol].
Qed.

End provider.

(** ** Context keys *)

(** C9: the key returned for an identifier is that identifier, so keys
    made from two identifiers are equal exactly when the identifiers are:
    by their characters for strings, by identity for symbols, and never
    across the two kinds.  The function takes no realm and returns none:
    it cannot touch the registry. *)
Theorem RpcContextKey_is_identifier (key key' : PropertyKey) :
  RpcContextKey key = key
  ∧ (RpcContextKey key = RpcContextKey key' ↔ key = key')
  ∧ (∀ s s', RpcContextKey (KString s) = RpcContextKey (KString s') ↔ s = s')
  ∧ (∀ y y', RpcContextKey (KSymbol y) = RpcContextKey (KSymbol y') ↔ y = y')
  ∧ (∀ s y, RpcContextKey (KString s) ≠ RpcContextKey (KSymbol y)).
Proof.
  unfold RpcContextKey. split; [done|]. split; [done|].
  split; [|split]; [intros s s'|intros y y'|intros s y]; [| |done];
    (split; [by intros [= ->] | by intros ->]).
Qed.

(** ** [RpcEvent.is] *)

Section event_test.

Implicit Types (m : exports) (x v : val) (o : object).

Lemma isFunction_spec v : isFunction v = true ↔ function_val v.
Proof.
  unfold isFunction, function_val. split.
  - destruct v as [| | | | | |[[] own proto]]; simpl; try done. eauto.
  - by intros (own & proto & ->).
Qed.

Lemma isObject_spec x : isObject x = true ↔ ∃ o, x = VObject o ∧ callable o = false.
Proof.
  unfold isObject. split.
  - destruct x as [| | | | | |o]; simpl; try done.
    destruct (callable o) eqn:E; simpl; [done | eauto].
  - intros (o & -> & Hc). simpl. by rewrite Hc.
Qed.

(** On an object no member access throws, and [RpcEvent.is] is the
    conjunction of its five tests. *)
Lemma RpcEvent_is_object m o :
  RpcEvent_is m (VObject o)
  = Ok (negb (callable o)
        && isFunction (object_get o (KSymbol (kOnSendAll m)))
        && isFunction (object_get o (KSymbol (kOnSendTo m)))
        && isFunction (object_get o (KString "sendAll"))
        && isFunction (object_get o (KString "sendTo"))).
Proof.
  unfold RpcEvent_is, isObject. simpl.
  destruct (callable o); simpl; [done|].
  by repeat (destruct (isFunction _); simpl; [|done]).
Qed.

(** The guard [isObject] keeps [RpcEvent.is] away from the member accesses
    that would throw. *)
Lemma RpcEvent_is_not_object m x :
  (∀ o, x ≠ VObject o) → RpcEvent_is m x = Ok false.
Proof. destruct x; try done. intros H. by destruct (H o). Qed.

(** C6: [RpcEvent.is] never throws; it answers true exactly for the
    objects whose four members are functions; it answers false for [{}],
    for [null], for every function and for every object that lacks one of
    the four members. *)
Theorem RpcEvent_is_spec m x :
  (∃ b, RpcEvent_is m x = Ok b)
  ∧ (RpcEvent_is m x = Ok true ↔ event_shaped m x)
  ∧ RpcEvent_is m (VObject (Obj false [] None)) = Ok false
  ∧ RpcEvent_is m VNull = Ok false
  ∧ (∀ own proto, RpcEvent_is m (VObject (Obj true own proto)) = Ok false)
  ∧ (∀ o k, k ∈ event_members m → object_get o k = VUndefined →
            RpcEvent_is m (VObject o) = Ok false).
Proof.
  split; [|split; [|split; [|split; [|split]]]].
  - destruct x; try (by eexists). rewrite RpcEvent_is_object. by eexists.
  - unfold event_shaped. split.
    + destruct x as [| | | | | |o]; try done.
      rewrite RpcEvent_is_object. intros [= H].
      repeat (apply andb_true_iff in H as [H ?]).
      exists o. rewrite <-!isFunction_spec.
      by destruct (callable o).
    + intros (o & -> & Hc & H1 & H2 & H3 & H4).
      apply isFunction_spec in H1, H2, H3, H4.
      rewrite RpcEvent_is_object. by rewrite Hc, H1, H2, H3, H4.
  - done.
  - done.
  - intros own proto. by rewrite RpcEvent_is_object.
  - intros o k Hk Hundef. rewrite RpcEvent_is_object. f_equal.
    unfold event_members in Hk.
    repeat (apply elem_of_cons in Hk as [->|Hk]);
      [| | | |by apply elem_of_nil in Hk];
      rewrite Hundef; simpl; destruct (callable o); simpl; try done;
      by repeat (destruct (isFunction _); simpl; try done).
Qed.

Lemma RpcEvent_is_spec_witness :
  RpcEvent_is (load empty_realm).1 (sample_event (load empty_realm).1) = Ok true
  ∧ RpcEvent_is (load empty_realm).1
      (VObject (Obj false [(KString "sendAll", noop)] None)) = Ok false.
Proof.
  pose (m := (load empty_realm).1).
  destruct (RpcEvent_is_spec m (sample_event m)) as (_ & Hiff & _ & _ & _ & Hmiss).
  split.
  - apply Hiff. eexists. split; [reflexivity|]. split; [reflexivity|].
    by repeat split; vm_compute; eexists _, _.
  - apply (Hmiss _ (KString "sendTo")); [|reflexivity].
    unfold event_members. do 4 constructor.
Defined.

End event_test.

(** ** [RpcContext] *)

(** C7: [get] always returns; when the context holds nothing under the
    key, [get] returns [undefined] and [require] throws the
    [MissingContextValue] error for that key. *)
Theorem context_missing_key (ctx : RpcContext) (key : PropertyKey) :
  metadata ctx !! key = None →
  (∀ key', ∃ v, RpcContext_get ctx key' = Ok v)
  ∧ RpcContext_get ctx key = Ok VUndefined
  ∧ RpcContext_require ctx key = Throw (MissingContextValue key).
Proof.
  intros Habsent. unfold RpcContext_get, RpcContext_require. rewrite Habsent.
  split; [|done]. intros key'. destruct (metadata ctx !! key'); by eexists.
Qed.

Lemma context_missing_key_witness :
  (∀ key', ∃ v, RpcContext_get sample_context key' = Ok v)
  ∧ RpcContext_get sample_context (KSymbol (Sym 3)) = Ok VUndefined
  ∧ RpcContext_require sample_context (KSymbol (Sym 3))
    = Throw (MissingContextValue (KSymbol (Sym 3))).
Proof.
  apply (context_missing_key sample_context (KSymbol (Sym 3))).
  vm_compute. reflexivity.
Defined.

(** ** [sendAll] and [sendTo] *)

(** C8: one call of [sendAll] adds exactly one notification to the
    history, the [onSendAll] one with the event and the exceptions, and
    has called every subscriber of that channel with it when it returns;
    likewise [sendTo] with [onSendTo] and the targets. *)
Theorem send_notifies_once (ev : RpcEventImpl) (event : val)
    (exceptions : option (list val)) (targets : list val) :
  let all := OnSendAll (SendAllEvent.Make event exceptions) in
  let to := OnSendTo (SendToEvent.Make event targets) in
  (raised (sendAll event exceptions ev) = raised ev ++ [all]
   ∧ length (raised (sendAll event exceptions ev)) = S (length (raised ev))
   ∧ calls (sendAll event exceptions ev)
     = calls ev ++ map (λ l, (l, all)) (onSendAll ev))
  ∧ (raised (sendTo event targets ev) = raised ev ++ [to]
     ∧ length (raised (sendTo event targets ev)) = S (length (raised ev))
     ∧ calls (sendTo event targets ev)
       = calls ev ++ map (λ l, (l, to)) (onSendTo ev)).
Proof.
  simpl. repeat split; rewrite length_app; simpl; lia.
Qed.

(** A [sendAll] followed by a [sendTo] on an emitter with two subscribers
    on the first channel and one on the second. *)
Example send_sample :
  let all := OnSendAll (SendAllEvent.Make (VString "changed") (Some [VString "p"])) in
  let to := OnSendTo (SendToEvent.Make (VString "changed") [VString "p1"; VString "p2"]) in
  let ev := sendTo (VString "changed") [VString "p1"; VString "p2"]
              (sendAll (VString "changed") (Some [VString "p"]) sample_emitter) in
  raised ev = [all; to] ∧ calls ev = [(0, all); (1, all); (0, to)].
Proof. by split. Qed.

(* ================================================================== *)
(** * Further properties of the type-level layer *)

Section renaming.

Implicit Types (T : list member) (m : member) (P K : string) (k : key_ty).

Lemma app_string_inj P K1 K2 : P +:+ K1 = P +:+ K2 → K1 = K2.
Proof.
  induction P as [|c P IH]; intros H; [exact H|].
  injection H as H. by apply IH.
Qed.

Lemma EnsurePrefix_prefixed P K :
  starts_with P K → EnsurePrefix P (KLit K) = Some (KLit K).
Proof.
  intros H. apply prefix_starts_with in H. unfold EnsurePrefix; simpl.
  by rewrite H.
Qed.

Lemma EnsurePrefix_unprefixed P K :
  ¬ starts_with P K → EnsurePrefix P (KLit K) = Some (KLit (P +:+ K)).
Proof.
  intros H. apply prefix_not_starts_with in H. unfold EnsurePrefix; simpl.
  by rewrite H.
Qed.

Lemma starts_with_dec P K : starts_with P K ∨ ¬ starts_with P K.
Proof.
  destruct (String.prefix P K) eqn:E.
  - left. by apply prefix_starts_with.
  - right. by apply prefix_not_starts_with.
Qed.

(** The only way for two string names to be renamed alike. *)
Lemma EnsurePrefix_same P K1 K2 :
  EnsurePrefix P (KLit K1) = EnsurePrefix P (KLit K2) →
  K1 = K2
  ∨ (¬ starts_with P K2 ∧ K1 = P +:+ K2)
  ∨ (¬ starts_with P K1 ∧ K2 = P +:+ K1).
Proof.
  destruct (starts_with_dec P K1) as [H1|H1], (starts_with_dec P K2) as [H2|H2].
  - rewrite !EnsurePrefix_prefixed by done. intros [= ->]. by left.
  - rewrite EnsurePrefix_prefixed, EnsurePrefix_unprefixed by done.
    intros [= ->]. right; left. done.
  - rewrite EnsurePrefix_unprefixed, EnsurePrefix_prefixed by done.
    intros [= <-]. right; right. done.
  - rewrite !EnsurePrefix_unprefixed by done. intros [= H].
    left. by apply app_string_inj in H.
Qed.

Lemma EnsurePrefix_again P k k' :
  EnsurePrefix P k = Some k' → EnsurePrefix P k' = Some k'.
Proof.
  intros E. apply EnsurePrefix_starts_with in E as (K' & -> & H).
  by apply EnsurePrefix_prefixed.
Qed.

(** X1: renaming a renamed key changes nothing: [EnsurePrefix<P, ->] is
    idempotent, on the keys it keeps and on the ones it drops. *)
Theorem EnsurePrefix_idempotent P k :
  EnsurePrefix P k ≫= EnsurePrefix P = EnsurePrefix P k.
Proof.
  destruct (EnsurePrefix P k) as [k'|] eqn:E; simpl; [|done].
  by apply (EnsurePrefix_again P k).
Qed.

(** X2: two string keys are renamed to the same key exactly when they are
    equal or one is the other with the prefix in front: [foo] and [$foo]
    collide, and nothing else does. *)
Theorem EnsurePrefix_collision P K1 K2 :
  EnsurePrefix P (KLit K1) = EnsurePrefix P (KLit K2)
  ↔ K1 = K2
    ∨ (¬ starts_with P K2 ∧ K1 = P +:+ K2)
    ∨ (¬ starts_with P K1 ∧ K2 = P +:+ K1).
Proof.
  split; [apply EnsurePrefix_same|].
  intros [->|[[H2 ->]|[H1 ->]]]; [done| |].
  - rewrite (EnsurePrefix_unprefixed P K2 H2).
    apply EnsurePrefix_prefixed. by exists K2.
  - rewrite (EnsurePrefix_unprefixed P K1 H1).
    symmetry. apply EnsurePrefix_prefixed. by exists K1.
Qed.

End renaming.

Section parameters.

Implicit Types (rs os : list uty) (x e : uty).

(** X3: only the last parameter is looked at.  In front of a non-empty
    list of parameters without a rest parameter any required parameters
    may stand, cancellation tokens among them, and they are all kept. *)
Theorem WithoutCancellationToken_app rs0 rs os :
  rs ++ os ≠ [] →
  WithoutCancellationToken (Sig (rs0 ++ rs) os None)
  = Sig (rs0 ++ required (WithoutCancellationToken (Sig rs os None)))
        (optional (WithoutCancellationToken (Sig rs os None)))
        (rest (WithoutCancellationToken (Sig rs os None))).
Proof.
  intros Hne. destruct (split_last os) as [[os' x]|] eqn:Eo.
  - apply split_last_Some in Eo as ->.
    rewrite !WithoutCancellationToken_optional.
    by destruct (extends_CancellationToken_opt x).
  - apply split_last_None in Eo as ->. rewrite app_nil_r in Hne.
    destruct (split_last rs) as [[rs' x]|] eqn:Er.
    + apply split_last_Some in Er as ->.
      rewrite app_assoc, !WithoutCancellationToken_required.
      destruct (extends_CancellationToken_opt x); simpl; [done|].
      by rewrite app_assoc.
    + by apply split_last_None in Er.
Qed.

Lemma WithoutCancellationToken_app_witness :
  WithoutCancellationToken
    (Sig ([[TCancellationToken]] ++ [string_]) [[TCancellationToken]] None)
  = Sig ([[TCancellationToken]]
           ++ required (WithoutCancellationToken
                          (Sig [string_] [[TCancellationToken]] None)))
        (optional (WithoutCancellationToken
                     (Sig [string_] [[TCancellationToken]] None)))
        (rest (WithoutCancellationToken
                 (Sig [string_] [[TCancellationToken]] None))).
Proof.
  apply (WithoutCancellationToken_app [[TCancellationToken]] [string_]
           [[TCancellationToken]]).
  discriminate.
Defined.



End parameters.

Section shape.

Implicit Types (T : list member) (m : member) (K : string) (fits : event_test).

Lemma RpcServer_cons fits m T :
  RpcServer fits (m :: T)
  = match RpcServer_member fits m with
    | Some m' => m' :: RpcServer fits T
    | None => RpcServer fits T
    end.
Proof. done. Qed.






(** X5: a server shape keeps all its members and all its names when it
    is transformed again: the names of [RpcServer<RpcServer<T>>] are those
    of [RpcServer<T>], in the same order. *)
Theorem RpcServer_names_stable fits T :
  mname <$> RpcServer fits (RpcServer fits T) = mname <$> RpcServer fits T.
Proof.
  induction T as [|m T IH]; [done|].
  rewrite (RpcServer_cons fits m T).
  destruct (RpcServer_member fits m) as [m'|] eqn:Em; [|exact IH].
  assert (∃ X', RpcServer_member fits m' = Some (Member (mname m') false X'))
    as [X' Hm'].
  { unfold RpcServer_member in Em |- *.
    destruct (EnsurePrefix "$" (mname m)) as [k'|] eqn:E; [|done].
    injection Em as <-. simpl mname.
    rewrite (EnsurePrefix_again "$" (mname m) k' E). by eexists. }
  rewrite RpcServer_cons, Hm', !fmap_cons. simpl mname. by rewrite IH.
Qed.

Lemma RpcServer_filter_string_named fits T :
  RpcServer fits T = RpcServer fits (List.filter string_named T)
  ∧ length (RpcServer fits T) = length (List.filter string_named T).
Proof.
  induction T as [|m T [IH1 IH2]]; [done|].
  rewrite RpcServer_cons. simpl List.filter.
  destruct (string_named m) eqn:Es; unfold string_named in Es.
  - destruct (mname m) as [K| |] eqn:EK; [|done..].
    rewrite RpcServer_cons.
    assert (∃ m', RpcServer_member fits m = Some m') as [m' ->].
    { destruct (EnsurePrefix_literal "$" K) as (K' & HK' & _).
      unfold RpcServer_member. rewrite EK, HK'. by eexists. }
    split; [by rewrite <-IH1 | cbn [length]; by rewrite IH2].
  - rewrite non_string_member_dropped; [done|].
    intros K HK. by rewrite HK in Es.
Qed.

(** X6: members whose key is a symbol or a number count for nothing: the
    server shape of an interface is that of its string-named members; and
    it has exactly one member for each of those when the names of the
    interface are pairwise distinct and the interface does not hold a
    name together with its prefixed form. *)
Theorem RpcServer_string_named fits T :
  RpcServer fits T = RpcServer fits (List.filter string_named T)
  ∧ (NoDup (mname <$> T) →
     (∀ K, KLit K ∈ mname <$> T → KLit ("$" +:+ K) ∈ mname <$> T →
           starts_with "$" K) →
     length (RpcServer fits T) = length (List.filter string_named T)).
Proof.
  destruct (RpcServer_filter_string_named fits T) as [H1 H2]. by split.
Qed.

Lemma RpcServer_string_named_witness :
  RpcServer Disposable_test Search
  = RpcServer Disposable_test (List.filter string_named Search)
  ∧ length (RpcServer Disposable_test Search)
    = length (List.filter string_named Search).
Proof.
  destruct (RpcServer_string_named Disposable_test Search) as [H1 H2].
  split; [exact H1|]. apply H2.
  - vm_compute.
    repeat (constructor;
            [by rewrite ?elem_of_cons, elem_of_nil; intros H; intuition congruence|]).
    constructor.
  - intros K Hin1 Hin2. vm_compute in Hin1.
    repeat (apply elem_of_cons in Hin1 as [Hin1|Hin1];
            [try discriminate Hin1; injection Hin1 as ->|]).
    all: first
      [ by apply elem_of_nil in Hin1
      | by exists "ping"
      | vm_compute in Hin2;
        repeat (apply elem_of_cons in Hin2 as [Hin2|Hin2]; [discriminate Hin2|]);
        by apply elem_of_nil in Hin2 ].
Defined.

Lemma omap_NoDup {A B} (f : A → option B) (l : list A) :
  NoDup l →
  (∀ x y z, x ∈ l → y ∈ l → f x = Some z → f y = Some z → x = y) →
  NoDup (omap f l).
Proof.
  induction 1 as [|x l Hx Hl IH]; intros Hinj; simpl; [constructor|].
  assert (NoDup (omap f l)) as IH'.
  { apply IH. intros a b z Ha Hb. apply Hinj; by constructor. }
  destruct (f x) as [z|] eqn:E; [|done].
  constructor; [|done].
  intros Hz. apply list_elem_of_omap in Hz as (y & Hy & Hfy).
  assert (x = y) as -> by (apply (Hinj x y z); [constructor|by constructor|done..]).
  done.
Qed.

Lemma RpcServer_names fits T :
  mname <$> RpcServer fits T = omap (EnsurePrefix "$") (mname <$> T).
Proof.
  induction T as [|m T IH]; [done|].
  rewrite RpcServer_cons, fmap_cons. simpl omap. unfold RpcServer_member.
  destruct (EnsurePrefix "$" (mname m)); [|done].
  rewrite fmap_cons. simpl. by rewrite IH.
Qed.

(** X7: the names of the server shape are pairwise distinct as soon as
    those of the interface are and the interface does not hold a name
    together with its prefixed form. *)
Theorem RpcServer_names_distinct fits T :
  NoDup (mname <$> T) →
  (∀ K, KLit K ∈ mname <$> T → KLit ("$" +:+ K) ∈ mname <$> T →
        starts_with "$" K) →
  NoDup (mname <$> RpcServer fits T).
Proof.
  intros Hnd Hfree. rewrite RpcServer_names. apply omap_NoDup; [done|].
  intros k1 k2 z H1 H2 E1 E2.
  destruct k1 as [K1| |]; [|done..]. destruct k2 as [K2| |]; [|done..].
  assert (EnsurePrefix "$" (KLit K1) = EnsurePrefix "$" (KLit K2)) as E
    by congruence.
  apply EnsurePrefix_same in E as [->|[[Hn ->]|[Hn ->]]]; [done| |].
  - by destruct (Hn (Hfree K2 H2 H1)).
  - by destruct (Hn (Hfree K1 H1 H2)).
Qed.

Lemma RpcServer_names_distinct_witness :
  NoDup (mname <$> RpcServer Disposable_test Search).
Proof.
  apply (RpcServer_names_distinct Disposable_test Search).
  - vm_compute.
    repeat (constructor;
            [by rewrite ?elem_of_cons, elem_of_nil; intros H; intuition congruence|]).
    constructor.
  - intros K H1 H2. vm_compute in H1.
    repeat (apply elem_of_cons in H1 as [H1|H1];
            [try discriminate H1; injection H1 as ->|]).
    all: first
      [ by apply elem_of_nil in H1
      | by exists "ping"
      | vm_compute in H2;
        repeat (apply elem_of_cons in H2 as [H2|H2]; [discriminate H2|]);
        by apply elem_of_nil in H2 ].
Defined.

End shape.

(* ================================================================== *)
(** * Further properties of the run-time layer *)

Section realms.

Implicit Types (r : realm) (k d : string) (y p : symbol) (ops : list realm_op).

Lemma load_RpcServerProvider r :
  RpcServerProvider (load r).1 = (Symbol "RpcServerProvider" r).1.
Proof. by rewrite load_unfold. Qed.

Lemma load_realm r :
  (load r).2
  = (Symbol_for "onSendTo"
       (Symbol_for "onSendAll" (Symbol "RpcServerProvider" r).2).2).2.
Proof. by rewrite load_unfold. Qed.

(** Symbols are only ever added. *)
Lemma Symbol_for_grows k r :
  length (descriptions r) ≤ length (descriptions (Symbol_for k r).2).
Proof.
  unfold Symbol_for. destruct (registry r !! k); simpl; [done|].
  rewrite length_app. lia.
Qed.

Lemma run_ops_grows ops r :
  length (descriptions r) ≤ length (descriptions (run_ops ops r)).
Proof.
  revert r. induction ops as [|op ops IH]; intros r; simpl; [done|].
  etrans; [|apply IH]. destruct op; simpl.
  - rewrite length_app. lia.
  - apply Symbol_for_grows.
Qed.

Lemma load_grows r :
  S (length (descriptions r)) ≤ length (descriptions (load r).2).
Proof.
  rewrite load_realm.
  etrans; [|apply Symbol_for_grows]. etrans; [|apply Symbol_for_grows].
  simpl. rewrite length_app. simpl. lia.
Qed.

Lemma realm_ok_empty : realm_ok empty_realm.
Proof.
  split; [intros k i H | intros k1 k2 y H]; simpl in H;
    by rewrite lookup_empty in H.
Qed.

Lemma realm_ok_Symbol d r : realm_ok r → realm_ok (Symbol d r).2.
Proof.
  intros [Hal Hinj]. split; [|exact Hinj].
  intros k i H. simpl in *. apply Hal in H. rewrite length_app. lia.
Qed.

Lemma realm_ok_Symbol_for k r : realm_ok r → realm_ok (Symbol_for k r).2.
Proof.
  intros [Hal Hinj]. unfold Symbol_for.
  destruct (registry r !! k) as [y|] eqn:E; simpl; [by split|].
  split.
  - intros k' i. simpl. rewrite length_app. simpl.
    destruct (decide (k = k')) as [->|Hne].
    + rewrite lookup_insert_eq. intros [= <-]. lia.
    + rewrite lookup_insert_ne by done. intros H. apply Hal in H. lia.
  - intros k1 k2 y. simpl.
    destruct (decide (k = k1)) as [<-|H1], (decide (k = k2)) as [<-|H2];
      rewrite ?lookup_insert_eq, ?lookup_insert_ne by done.
    + done.
    + intros [= <-] H. apply Hal in H. lia.
    + intros H [= <-]. apply Hal in H. lia.
    + apply Hinj.
Qed.

Lemma realm_ok_run_ops ops r : realm_ok r → realm_ok (run_ops ops r).
Proof.
  revert r. induction ops as [|op ops IH]; intros r H; simpl; [done|].
  apply IH. destruct op; simpl.
  - by apply realm_ok_Symbol.
  - by apply realm_ok_Symbol_for.
Qed.

Lemma realm_ok_load r : realm_ok r → realm_ok (load r).2.
Proof.
  intros H. rewrite load_realm.
  by do 2 apply realm_ok_Symbol_for; apply realm_ok_Symbol.
Qed.

Lemma unregistered_fresh d r :
  registry_allocated r → unregistered (Symbol d r).1 (Symbol d r).2.
Proof.
  intros Hal. split; simpl; [|rewrite length_app; simpl; lia].
  intros k H. apply Hal in H. lia.
Qed.

(** A second evaluation of the module finds the channel keys of the
    first. *)
Lemma load_again_keys r ops :
  kOnSendAll (load (run_ops ops (load r).2)).1 = kOnSendAll (load r).1
  ∧ kOnSendTo (load (run_ops ops (load r).2)).1 = kOnSendTo (load r).1.
Proof.
  destruct (load_registered r) as [Hall Hto].
  apply (run_ops_keeps ops) in Hall, Hto. split.
  - rewrite (load_kOnSendAll (run_ops _ _)).
    by rewrite (Symbol_for_hit "onSendAll" (Symbol "RpcServerProvider" _).2 _ Hall).
  - rewrite (load_kOnSendTo (run_ops _ _)).
    apply (Symbol_for_keeps _ "onSendAll" (Symbol "RpcServerProvider" _).2) in Hto.
    by rewrite (Symbol_for_hit "onSendTo" _ _ Hto).
Qed.

(** X8: in every realm a program can reach, the three symbols the module
    exports are pairwise different: the two channels do not share a key,
    and neither is the provider's. *)
Theorem exports_distinct ops :
  let m := (load (run_ops ops empty_realm)).1 in
  kOnSendAll m ≠ kOnSendTo m
  ∧ kOnSendAll m ≠ RpcServerProvider m
  ∧ kOnSendTo m ≠ RpcServerProvider m.
Proof.
  pose proof (realm_ok_run_ops ops _ realm_ok_empty) as Hok.
  set (r := run_ops ops empty_realm) in *. simpl.
  destruct (load_registered r) as [Hall Hto].
  destruct (realm_ok_load r Hok) as [_ Hinj].
  pose proof (unregistered_fresh "RpcServerProvider" r (proj1 Hok)) as Hp.
  apply (unregistered_Symbol_for _ "onSendAll") in Hp as [Hpa Hp].
  apply (unregistered_Symbol_for _ "onSendTo") in Hp as [Hpt _].
  rewrite load_RpcServerProvider, load_kOnSendAll, load_kOnSendTo.
  split; [|by split].
  intros Heq. rewrite <-load_kOnSendAll, <-load_kOnSendTo in Heq.
  rewrite <-Heq in Hto. by pose proof (Hinj _ _ _ Hall Hto).
Qed.

(** X9: when the module is evaluated twice in one process (two copies of
    the package), both copies hold the same two channel keys, and two
    different provider symbols. *)
Theorem module_loaded_twice r ops :
  let m1 := (load r).1 in
  let m2 := (load (run_ops ops (load r).2)).1 in
  kOnSendAll m2 = kOnSendAll m1
  ∧ kOnSendTo m2 = kOnSendTo m1
  ∧ RpcServerProvider m2 ≠ RpcServerProvider m1.
Proof.
  simpl. destruct (load_again_keys r ops) as [Hall Hto].
  split; [done|]. split; [done|].
  rewrite !load_RpcServerProvider. simpl. intros [= H].
  pose proof (load_grows r). pose proof (run_ops_grows ops (load r).2). lia.
Qed.

(** X10: so the two copies agree on what an event is: [RpcEvent.is] of
    one copy gives, on every value, the answer of the other. *)
Theorem RpcEvent_is_across_copies r ops (x : val) :
  RpcEvent_is (load (run_ops ops (load r).2)).1 x = RpcEvent_is (load r).1 x.
Proof.
  destruct (load_again_keys r ops) as [Hall Hto].
  unfold RpcEvent_is. by rewrite Hall, Hto.
Qed.

(** X11: keys made from [Symbol(d)] are unique and keys made from
    [Symbol.for(d)] are shared: two context keys built on two calls of
    [Symbol] with one description differ, two built on two calls of
    [Symbol.for] with one label are equal. *)
Theorem context_keys_from_symbols r ops d :
  RpcContextKey (KSymbol (Symbol d (run_ops ops (Symbol d r).2)).1)
  ≠ RpcContextKey (KSymbol (Symbol d r).1)
  ∧ RpcContextKey (KSymbol (Symbol_for d (run_ops ops (Symbol_for d r).2)).1)
    = RpcContextKey (KSymbol (Symbol_for d r).1).
Proof.
  unfold RpcContextKey. split.
  - simpl. intros [= H].
    pose proof (run_ops_grows ops (Symbol d r).2) as Hle.
    simpl in Hle. rewrite length_app in Hle. simpl in Hle. lia.
  - pose proof (run_ops_keeps ops _ _ _ (Symbol_for_registered d r)) as H.
    by rewrite (Symbol_for_hit d _ _ H).
Qed.

End realms.

Section event_objects.

Implicit Types (m : exports) (o p : object) (k : PropertyKey) (v : val).

(** [RpcEvent.is] reads the kind of the object and its four members,
    nothing else. *)
Lemma RpcEvent_is_ext m o o' :
  callable o = callable o' →
  (∀ k, k ∈ event_members m → object_get o k = object_get o' k) →
  RpcEvent_is m (VObject o) = RpcEvent_is m (VObject o').
Proof.
  intros Hc Hget. rewrite !RpcEvent_is_object, Hc.
  rewrite !Hget; [done|unfold event_members..].
  - do 4 constructor.
  - do 3 constructor.
  - do 2 constructor.
  - constructor.
Qed.

(** X12: the four members may be inherited.  An object that defines none
    of them itself is an event exactly when its prototype is one. *)
Theorem RpcEvent_is_inherited m own p :
  (∀ k, k ∈ event_members m → own_property own k = None) →
  callable p = false →
  RpcEvent_is m (VObject (Obj false own (Some p))) = RpcEvent_is m (VObject p).
Proof.
  intros Hown Hc. apply RpcEvent_is_ext; [by rewrite Hc|].
  intros k Hk. simpl. by rewrite (Hown k Hk).
Qed.

Lemma RpcEvent_is_inherited_witness :
  RpcEvent_is (Exports (Sym 0) (Sym 1) (Sym 2))
    (VObject (Obj false [(KString "name", VString "changes")]
                (Some (Obj false
                         [(KSymbol (Sym 1), noop); (KSymbol (Sym 2), noop);
                          (KString "sendAll", noop); (KString "sendTo", noop)]
                         None))))
  = RpcEvent_is (Exports (Sym 0) (Sym 1) (Sym 2))
      (VObject (Obj false
                  [(KSymbol (Sym 1), noop); (KSymbol (Sym 2), noop);
                   (KString "sendAll", noop); (KString "sendTo", noop)]
                  None)).
Proof.
  apply (RpcEvent_is_inherited (Exports (Sym 0) (Sym 1) (Sym 2))); [|reflexivity].
  intros k Hk. unfold event_members in Hk. simpl in Hk.
  repeat (apply elem_of_cons in Hk as [->|Hk]; [reflexivity|]).
  by apply elem_of_nil in Hk.
Defined.

(** X13: other members do not matter.  Adding to an object a property
    under a key that is none of the four leaves the answer of
    [RpcEvent.is] unchanged. *)
Theorem RpcEvent_is_other_member m c own proto k v :
  k ∉ event_members m →
  RpcEvent_is m (VObject (Obj c ((k, v) :: own) proto))
  = RpcEvent_is m (VObject (Obj c own proto)).
Proof.
  intros Hk. apply RpcEvent_is_ext; [done|].
  intros k' Hk'. simpl. destruct (decide (k = k')) as [->|Hne]; [done|].
  done.
Qed.

Lemma RpcEvent_is_other_member_witness :
  RpcEvent_is (Exports (Sym 0) (Sym 1) (Sym 2))
    (VObject (Obj false [(KString "dispose", noop); (KString "sendAll", noop)] None))
  = RpcEvent_is (Exports (Sym 0) (Sym 1) (Sym 2))
      (VObject (Obj false [(KString "sendAll", noop)] None)).
Proof.
  apply (RpcEvent_is_other_member (Exports (Sym 0) (Sym 1) (Sym 2))).
  unfold event_members. simpl. intros Hk.
  repeat (apply elem_of_cons in Hk as [Hk|Hk]; [discriminate Hk|]).
  by apply elem_of_nil in Hk.
Defined.

(** X14: an event need not come from this module.  An object that other
    code builds on keys it got from [Symbol.for('onSendAll')] and
    [Symbol.for('onSendTo')], with four functions as members, passes
    [RpcEvent.is]. *)
Theorem RpcEvent_is_foreign_event (r : realm) (ops : list realm_op)
    (f1 f2 f3 f4 : val) :
  function_val f1 → function_val f2 → function_val f3 → function_val f4 →
  let r' := run_ops ops (load r).2 in
  let a := Symbol_for "onSendAll" r' in
  let t := Symbol_for "onSendTo" a.2 in
  RpcEvent_is (load r).1
    (VObject (Obj false
                [(KSymbol a.1, f1); (KSymbol t.1, f2);
                 (KString "sendAll", f3); (KString "sendTo", f4)]
                None))
  = Ok true.
Proof.
  intros H1 H2 H3 H4. simpl.
  destruct (load_registered r) as [Hall Hto].
  apply (run_ops_keeps ops) in Hall, Hto.
  rewrite (Symbol_for_hit _ _ _ Hall). simpl.
  rewrite (Symbol_for_hit _ _ _ Hto). simpl.
  rewrite RpcEvent_is_object. simpl.
  apply isFunction_spec in H1, H2, H3, H4.
  rewrite decide_True by done.
  destruct (decide (KSymbol (kOnSendAll (load r).1) = KSymbol (kOnSendTo (load r).1)));
    [|rewrite decide_True by done]; by rewrite ?H1, ?H2, ?H3, ?H4.
Qed.

Lemma RpcEvent_is_foreign_event_witness :
  RpcEvent_is (load empty_realm).1
    (VObject (Obj false
                [(KSymbol (Symbol_for "onSendAll"
                             (run_ops [CallSymbol "mine"] (load empty_realm).2)).1,
                  noop);
                 (KSymbol (Symbol_for "onSendTo"
                             (Symbol_for "onSendAll"
                                (run_ops [CallSymbol "mine"] (load empty_realm).2)).2).1,
                  noop);
                 (KString "sendAll", noop); (KString "sendTo", noop)]
                None))
  = Ok true.
Proof.
  apply (RpcEvent_is_foreign_event empty_realm [CallSymbol "mine"] noop noop noop noop);
    by eexists _, _.
Defined.

End event_objects.

Lemma RpcServerProvider_private_witness :
  (Symbol_for "RpcServerProvider"
     (run_ops [CallSymbol "RpcServerProvider"] (load empty_realm).2)).1
  ≠ RpcServerProvider (load empty_realm).1
  ∧ (Symbol "RpcServerProvider"
       (run_ops [CallSymbol "RpcServerProvider"] (load empty_realm).2)).1
    ≠ RpcServerProvider (load empty_realm).1.
Proof.
  apply (RpcServerProvider_private empty_realm [CallSymbol "RpcServerProvider"]).
  intros k i H. simpl in H. by rewrite lookup_empty in H.
Defined.

